(** * Passkey test: the Credentials API construct and the ceremony stores

    A shallow embedding of [cdk/lib/credentials-api.ts] (the CDK construct
    that provisions the registration and discoverable-credential Lambda
    functions and the HTTP API in front of them), followed by a model of the
    session and credential stores of the ceremony engine. *)

From Stdlib Require Import Strings.String Strings.Ascii NArith Lia.
From stdpp Require Import base option list gmap strings.

Local Open Scope string_scope.
Local Open Scope stdpp_scope.

(** ** JavaScript string operations used by the construct *)

Module JsString.

(** [s.replace(/\/$/, '')].  The pattern has no [m] flag, so [$] matches at
    the end of the input only.  The search tries the start positions from
    left to right; at a position the pattern matches exactly when the rest
    of the input is the single character [/].  The first (and only) match
    is replaced by the empty string. *)
Fixpoint replace_trailing_slash (s : string) : string :=
  if String.eqb s "/" then ""
  else match s with
       | EmptyString => EmptyString
       | String c r => String c (replace_trailing_slash r)
       end.

(** [s.replace(/^\//, '')].  Without the [m] flag [^] matches at position 0
    only, so the pattern matches exactly when the input starts with [/]. *)
Definition replace_leading_slash (s : string) : string :=
  match s with
  | String c r => if Ascii.eqb c "/" then r else s
  | EmptyString => EmptyString
  end.

(** [s.endsWith('/')] and [s.startsWith('/')]. *)
Fixpoint ends_with_slash (s : string) : bool :=
  match s with
  | EmptyString => false
  | String c EmptyString => Ascii.eqb c "/"
  | String _ r => ends_with_slash r
  end.

Definition starts_with_slash (s : string) : bool :=
  match s with
  | String c _ => Ascii.eqb c "/"
  | EmptyString => false
  end.

(** [path.join(...)] of [node:path] on plain, non-empty segments: the
    segments separated by [/]. *)
Fixpoint path_join (segments : list string) : string :=
  match segments with
  | [] => "."
  | [s] => s
  | s :: rest => s +:+ "/" +:+ path_join rest
  end.

(** [strip_prefix p s] is [Some r] when [s = p + r]. *)
Fixpoint strip_prefix (p s : string) : option string :=
  match p with
  | EmptyString => Some s
  | String a p' =>
      match s with
      | String b s' => if Ascii.eqb a b then strip_prefix p' s' else None
      | EmptyString => None
      end
  end.

End JsString.

(** ** The parts of the AWS CDK the construct uses *)

Module Cdk.

(** [aws_dynamodb.Table], [aws_cognito.UserPool] and
    [aws_ssm.StringParameter]: of each resource the construct reads one
    attribute, its deploy-time name. *)
Record Table := { tableName : string }.
Record CognitoUserPool := { userPoolId : string }.
Record StringParameter := { parameterName : string }.

Inductive Architecture := ARM_64 | X86_64.

Inductive HttpMethod :=
  ANY | DELETE | GET | HEAD | OPTIONS | PATCH | POST | PUT.

Inductive CorsHttpMethod :=
  CORS_ANY | CORS_DELETE | CORS_GET | CORS_HEAD | CORS_OPTIONS
| CORS_PATCH | CORS_POST | CORS_PUT.

#[global] Instance HttpMethod_eq_dec : EqDecision HttpMethod.
Proof. solve_decision. Defined.

(** [Duration], kept in seconds. *)
Record Duration := { toSeconds : N }.
Definition Duration_seconds (n : N) : Duration := {| toSeconds := n |}.
Definition Duration_days (n : N) : Duration := {| toSeconds := n * 86400 |}.

(** An object literal with string values, read as a map.  A key written
    twice keeps its last value. *)
Definition js_object (fields : list (string * string)) : gmap string string :=
  foldl (λ m kv, <[kv.1 := kv.2]> m) ∅ fields.

(** [RustFunctionProps] of [cargo-lambda-cdk], the members set here. *)
Record RustFunctionProps := {
  manifestPath : string;
  binaryName : string;
  architecture : Architecture;
  environment : gmap string string;
  memorySize : N;
  timeout : Duration;
}.

(** A provisioned function: the id it was constructed under and its
    properties. *)
Record Function := {
  functionId : string;
  functionProps : RustFunctionProps;
}.

(** What a [grant...] call allows its grantee to do. *)
Inductive Permission :=
| ParameterRead (p : StringParameter)
| TableReadWriteData (t : Table)
| UserPoolActions (u : CognitoUserPool) (actions : list string).

Record Grant := {
  grantee : Function;
  permission : Permission;
}.

(** Constructing resources and granting permissions are effects on the
    construct tree below the enclosing scope: the constructs created so
    far, each by its path of ids from the enclosing scope down, and the
    grants made so far, both in the order of the calls.  A construct made
    with [this] as its scope lies one level below [this].  Ids are recorded
    as they are given: the checks the library makes on an id (not empty,
    not used by a sibling) and its rewriting of path separators in ids are
    not part of the model. *)
Record Scope := {
  constructs : list (list string);
  grants : list Grant;
}.

Definition empty_scope : Scope := {| constructs := []; grants := [] |}.

Definition Synth (A : Type) : Type := Scope → A * Scope.

Definition ret {A} (a : A) : Synth A := λ sc, (a, sc).

Definition bind {A B} (m : Synth A) (k : A → Synth B) : Synth B :=
  λ sc, let '(a, sc') := m sc in k a sc'.

(** [new Construct(scope, id)] for a construct at [path], the path of its
    scope followed by its id. *)
Definition add_construct (path : list string) : Synth unit :=
  λ sc, (tt, {| constructs := (constructs sc ++ [path])%list;
                grants := grants sc |}).

Definition add_grant (g : Grant) : Synth unit :=
  λ sc, (tt, {| constructs := constructs sc;
                grants := (grants sc ++ [g])%list |}).

(** [new RustFunction(scope, id, props)], [scope] given by its path. *)
Definition new_RustFunction (scope : list string) (id : string)
    (p : RustFunctionProps) : Synth Function :=
  bind (add_construct (scope ++ [id])%list) (λ _,
  ret {| functionId := id; functionProps := p |}).

(** [parameter.grantRead(fn)], [table.grantReadWriteData(fn)] and
    [userPool.grant(fn, ...actions)] *)
Definition grantRead (p : StringParameter) (fn : Function) : Synth unit :=
  add_grant {| grantee := fn; permission := ParameterRead p |}.

Definition grantReadWriteData (t : Table) (fn : Function) : Synth unit :=
  add_grant {| grantee := fn; permission := TableReadWriteData t |}.

Definition grant (u : CognitoUserPool) (fn : Function)
    (actions : list string) : Synth unit :=
  add_grant {| grantee := fn; permission := UserPoolActions u actions |}.

(** *** HTTP API *)

Record CorsPreflightOptions := {
  allowHeaders : list string;
  allowMethods : list CorsHttpMethod;
  allowOrigins : list string;
  maxAge : Duration;
}.

Record HttpApiProps := {
  description : string;
  createDefaultStage : bool;
  corsPreflight : option CorsPreflightOptions;
}.

(** [new HttpLambdaIntegration(id, handler)] *)
Record HttpLambdaIntegration := {
  integrationId : string;
  handler : Function;
}.

(** One route per path and method, as [addRoutes] creates them. *)
Record HttpRoute := {
  routePath : string;
  routeMethod : HttpMethod;
  routeIntegration : HttpLambdaIntegration;
}.

Record HttpStage := { url : string }.

Record HttpApi := {
  apiId : string;
  apiProps : HttpApiProps;
  defaultStage : option HttpStage;
  routes : list HttpRoute;
}.

(** [new HttpApi(scope, id, props)], [scope] given by its path.  The default
    stage exists exactly when [createDefaultStage] is set; [stageUrl] is the
    URL the deployment gives that stage. *)
Definition new_HttpApi (stageUrl : string) (scope : list string)
    (id : string) (p : HttpApiProps) : Synth HttpApi :=
  bind (add_construct (scope ++ [id])%list) (λ _,
  ret {| apiId := id;
         apiProps := p;
         defaultStage :=
           if createDefaultStage p then Some {| url := stageUrl |} else None;
         routes := [] |}).

Record AddRoutesOptions := {
  path : string;
  methods : option (list HttpMethod);
  integration : HttpLambdaIntegration;
}.

(** [api.addRoutes(options)]: one route for each method, [ANY] when no
    method is given. *)
Definition addRoutes (api : HttpApi) (o : AddRoutesOptions) : HttpApi :=
  {| apiId := apiId api;
     apiProps := apiProps api;
     defaultStage := defaultStage api;
     routes := routes api ++
       ((λ m, {| routePath := path o;
                 routeMethod := m;
                 routeIntegration := integration o |})
          <$> default [ANY] (methods o)) |}.

(** *** Routing of a request by the HTTP API

    A route whose path ends with the greedy variable [{proxy+}] serves
    every request path that extends the part before the variable by at
    least one character; any other route path serves that path alone.  A
    route for [ANY] serves every method.

    The part before the greedy variable is compared character by
    character.  This is the whole of what the route serves when that part
    has no path variable of its own; a [{name}] segment in it is read here
    as these characters, where the service lets it stand for any segment,
    so that for such a route the requests found here are some of the
    requests served, not all. *)
Fixpoint greedy_prefix (routePath : string) : option string :=
  if String.eqb routePath "{proxy+}" then Some ""
  else match routePath with
       | EmptyString => None
       | String c r => String c <$> greedy_prefix r
       end.

Definition path_matches (routePath requestPath : string) : bool :=
  match greedy_prefix routePath with
  | Some prefix =>
      match JsString.strip_prefix prefix requestPath with
      | Some rest => negb (String.eqb rest "")
      | None => false
      end
  | None => String.eqb routePath requestPath
  end.

Definition method_matches (routeMethod requestMethod : HttpMethod) : bool :=
  match routeMethod with
  | ANY => true
  | _ => bool_decide (routeMethod = requestMethod)
  end.

Definition route_matches (m : HttpMethod) (p : string) (r : HttpRoute)
  : bool :=
  method_matches (routeMethod r) m && path_matches (routePath r) p.

(** The functions whose routes serve the request. *)
Definition handlers (api : HttpApi) (m : HttpMethod) (p : string)
  : list Function :=
  (handler ∘ routeIntegration) <$> filter (λ r, route_matches m p r) (routes api).

End Cdk.

(** ** Sibling constructs

    [Parameters], [SessionStore] and [UserPool] are declared in
    [./parameters], [./session-store] and [./user-pool]; the Credentials API
    imports their types only.  Each is kept with the members the Credentials
    API reads. *)

Module Parameters.
Record t := { rpOriginParameter : Cdk.StringParameter }.
End Parameters.

Module SessionStore.
Record t := { sessionTable : Cdk.Table }.
End SessionStore.

Module UserPool.
Record t := {
  userPool : Cdk.CognitoUserPool;
  credentialTable : Cdk.Table;
}.
End UserPool.

(** ** The Credentials API construct *)

Module CredentialsApi.
Import JsString Cdk.

(** Props for [CredentialsApi]. *)
Record CredentialsApiProps := {
  basePath : string;
  parameters : Parameters.t;
  sessionStore : SessionStore.t;
  userPool : UserPool.t;
  allowOrigins : list string;
}.

(** The construct: its props and its three public members. *)
Record CredentialsApi := {
  props : CredentialsApiProps;
  registrationLambda : Function;
  discoverableLambda : Function;
  credentialsApi : HttpApi;
}.

Notation "'let!' x ':=' m 'in' k" := (bind m (λ x, k))
  (at level 10, x name, m at level 100, k at level 200, only parsing).
Notation "'do!' m 'in' k" := (bind m (λ _, k))
  (at level 10, m at level 100, k at level 200, only parsing).

(** [constructor(scope, id, props)].  [stageUrl] is the URL of the default
    stage of the HTTP API.  [super(scope, id)] puts the construct under the
    enclosing scope; the two functions and the API are made with [this] as
    their scope. *)
Definition constructor (stageUrl : string) (id : string)
    (props : CredentialsApiProps) : Synth CredentialsApi :=
  let allowOrigins := allowOrigins props in
  let basePath := basePath props in
  let parameters := parameters props in
  let sessionStore := sessionStore props in
  let userPool := userPool props in
  let manifestPath := path_join ["lambda"; "authentication"; "Cargo.toml"] in
  let registrationBasePath :=
    replace_trailing_slash basePath +:+ "/registration/" in
  let discoverableBasePath :=
    replace_trailing_slash basePath +:+ "/discoverable/" in
  let this := [id] in
  do! add_construct this in
  let! registrationLambda := new_RustFunction this "RegistrationLambda" {|
    manifestPath := manifestPath;
    binaryName := "registration";
    architecture := ARM_64;
    environment := js_object [
      ("BASE_PATH", registrationBasePath);
      ("SESSION_TABLE_NAME",
        tableName (SessionStore.sessionTable sessionStore));
      ("USER_POOL_ID", userPoolId (UserPool.userPool userPool));
      ("CREDENTIAL_TABLE_NAME",
        tableName (UserPool.credentialTable userPool));
      ("RP_ORIGIN_PARAMETER_PATH",
        parameterName (Parameters.rpOriginParameter parameters))
    ];
    memorySize := 128;
    timeout := Duration_seconds 5;
  |} in
  do! grantRead (Parameters.rpOriginParameter parameters) registrationLambda in
  do! grantReadWriteData (SessionStore.sessionTable sessionStore)
    registrationLambda in
  do! grantReadWriteData (UserPool.credentialTable userPool)
    registrationLambda in
  do! grant (UserPool.userPool userPool) registrationLambda [
    "cognito-idp:AdminCreateUser";
    "cognito-idp:AdminSetUserPassword";
    "cognito-idp:ListUsers"
  ] in
  let! discoverableLambda := new_RustFunction this "DiscoverableLambda" {|
    manifestPath := manifestPath;
    binaryName := "discoverable";
    architecture := ARM_64;
    environment := js_object [
      ("BASE_PATH", discoverableBasePath);
      ("SESSION_TABLE_NAME",
        tableName (SessionStore.sessionTable sessionStore));
      ("RP_ORIGIN_PARAMETER_PATH",
        parameterName (Parameters.rpOriginParameter parameters))
    ];
    memorySize := 128;
    timeout := Duration_seconds 5;
  |} in
  do! grantRead (Parameters.rpOriginParameter parameters) discoverableLambda in
  do! grantReadWriteData (SessionStore.sessionTable sessionStore)
    discoverableLambda in
  let! credentialsApi := new_HttpApi stageUrl this "CredentialsApi" {|
    description := "API to manage credentials";
    createDefaultStage := true;
    corsPreflight := Some {|
      allowHeaders := ["Content-Type"];
      allowMethods := [CORS_POST];
      Cdk.allowOrigins := allowOrigins;
      maxAge := Duration_days 1;
    |};
  |} in
  let credentialsApi := addRoutes credentialsApi {|
    path := registrationBasePath +:+ "{proxy+}";
    methods := Some [POST];
    integration := {| integrationId := "Registration";
                      handler := registrationLambda |};
  |} in
  let credentialsApi := addRoutes credentialsApi {|
    path := discoverableBasePath +:+ "{proxy+}";
    methods := Some [POST];
    integration := {| integrationId := "Discoverable";
                      handler := discoverableLambda |};
  |} in
  ret {| props := props;
         registrationLambda := registrationLambda;
         discoverableLambda := discoverableLambda;
         credentialsApi := credentialsApi |}.

(** [get basePath()]: base path of the Credentials API not including the
    trailing slash. *)
Definition get_basePath (this : CredentialsApi) : string :=
  replace_trailing_slash (basePath (props this)).

(** [get internalUrl()]: internal URL of the Credentials API.  The source
    asserts that the default stage exists ([defaultStage!]); reading [url]
    of a missing stage throws, which is [None] here. *)
Definition get_internalUrl (this : CredentialsApi) : option string :=
  stage ← defaultStage (credentialsApi this);
  Some (url stage +:+ replace_leading_slash (basePath (props this))).

(** The construct and the scope after provisioning it in an empty scope. *)
Definition provision (stageUrl id : string) (p : CredentialsApiProps)
  : CredentialsApi * Scope :=
  constructor stageUrl id p empty_scope.

Definition instance (stageUrl id : string) (p : CredentialsApiProps)
  : CredentialsApi :=
  (provision stageUrl id p).1.

Definition scope_of (stageUrl id : string) (p : CredentialsApiProps)
  : Scope :=
  (provision stageUrl id p).2.

(** The environment a function runs with. *)
Definition env (fn : Function) : gmap string string :=
  environment (functionProps fn).

(** The permissions granted to a function in a scope, in the order of the
    grants.  Functions are told apart by their construct ids. *)
Definition permissions_of (sc : Scope) (fn : Function) : list Permission :=
  permission <$>
    filter (λ g, String.eqb (functionId (grantee g)) (functionId fn))
           (grants sc).

(** The user-pool actions among permissions. *)
Definition directory_actions (ps : list Permission) : list string :=
  ps ≫= λ p, match p with UserPoolActions _ actions => actions | _ => [] end.

Definition directory_grants (ps : list Permission)
  : list (CognitoUserPool * list string) :=
  ps ≫= λ p, match p with
             | UserPoolActions u actions => [(u, actions)]
             | _ => []
             end.

(** The tables among permissions. *)
Definition tables_granted (ps : list Permission) : list Table :=
  ps ≫= λ p, match p with TableReadWriteData t => [t] | _ => [] end.

(** The store and directory locations an environment carries, by
    variable, and the names the props inject for them. *)
Definition locations (fn : Function) : list (option string) :=
  (λ k, env fn !! k) <$>
    [ "SESSION_TABLE_NAME"; "USER_POOL_ID"; "CREDENTIAL_TABLE_NAME";
      "RP_ORIGIN_PARAMETER_PATH" ].

Definition injected_locations (p : CredentialsApiProps) : list string :=
  [ tableName (SessionStore.sessionTable (sessionStore p));
    userPoolId (UserPool.userPool (userPool p));
    tableName (UserPool.credentialTable (userPool p));
    parameterName (Parameters.rpOriginParameter (parameters p)) ].

Definition with_basePath (b : string) (p : CredentialsApiProps)
  : CredentialsApiProps :=
  {| basePath := b;
     parameters := parameters p;
     sessionStore := sessionStore p;
     userPool := userPool p;
     allowOrigins := allowOrigins p |}.

(** An environment supplies a value when some variable holds it. *)
Definition supplies (fn : Function) (value : string) : Prop :=
  ∃ k, env fn !! k = Some value.

(** Props used to evaluate the construct on a concrete input. *)
Definition sample_props : CredentialsApiProps := {|
  basePath := "/auth/credentials/";
  parameters := {|
    Parameters.rpOriginParameter :=
      {| parameterName := "/passkey/rp-origin" |} |};
  sessionStore := {|
    SessionStore.sessionTable := {| tableName := "session-table" |} |};
  userPool := {|
    UserPool.userPool := {| userPoolId := "pool-1" |};
    UserPool.credentialTable := {| tableName := "credential-table" |} |};
  allowOrigins := ["https://app.example.com"];
|}.

Definition sample_url : string := "https://api.example.com/".

End CredentialsApi.

(** ** The stores of the ceremony engine

    The ceremony engine is the Rust package [lambda/authentication] that the
    two functions are built from.  Its session store and credential store
    are modelled from their contracts in the specification. *)

Module CeremonyCore.

Inductive Result (E A : Type) :=
| Ok (a : A)
| Err (e : E).
Arguments Ok {E A} a.
Arguments Err {E A} e.

(** Modelled from the spec: the error taxonomy of the engine, with the
    conflict of the session store's [create]. *)
Inductive Error :=
| SessionNotFound
| SessionExpired
| SessionAlreadyConsumed
| SessionConflict
| VerificationFailed
| UnknownCredential
| CredentialConflict
| StaleSignCount
| DirectoryUnavailable
| DirectoryConflict.

(** *** Session store *)

Inductive SessionKind := Registration | Authentication.
Inductive SessionState := Pending | Consumed.

(** Modelled from the spec: the session record of the data model.  Times
    are clock readings. *)
Record Session := {
  id : string;
  challenge : list N;
  kind : SessionKind;
  user_handle : option string;
  created_at : N;
  expires_at : N;
  state : SessionState;
}.

Definition mark_consumed (s : Session) : Session :=
  {| id := id s;
     challenge := challenge s;
     kind := kind s;
     user_handle := user_handle s;
     created_at := created_at s;
     expires_at := expires_at s;
     state := Consumed |}.

(** Modelled from the spec: a session is expired from [expires_at] on. *)
Definition expired (now : N) (s : Session) : bool :=
  (expires_at s <=? now)%N.

(** Modelled from the spec: the session store's [create].  It fails when
    a record with the id exists. *)
Definition create (s : Session) (store : gmap string Session)
  : Result Error unit * gmap string Session :=
  match store !! id s with
  | Some _ => (Err SessionConflict, store)
  | None => (Ok tt, <[id s := s]> store)
  end.

(** Modelled from the spec: the session store's [get].  An expired record
    reads as absent, whether or not it is still stored. *)
Definition get (now : N) (sid : string) (store : gmap string Session)
  : option Session :=
  match store !! sid with
  | Some s => if expired now s then None else Some s
  | None => None
  end.

(** Modelled from the spec: the session store's [consume], one atomic
    read-and-transition.  It reads the session as every reader does, so a
    session that has expired is a missing session, whether its record is
    still stored or a reaper has removed it: the call then fails as for an
    id that was never stored.  A session that is found is redeemed when it
    is pending, and reported as consumed otherwise.  The session read is
    returned and the record is left in the store in state [Consumed].  As
    an expired session is not told from a missing one, [SessionExpired] is
    not among the results. *)
Definition consume (now : N) (sid : string) (store : gmap string Session)
  : Result Error Session * gmap string Session :=
  match get now sid store with
  | None => (Err SessionNotFound, store)
  | Some s =>
      match state s with
      | Consumed => (Err SessionAlreadyConsumed, store)
      | Pending => (Ok s, <[sid := mark_consumed s]> store)
      end
  end.

(** Modelled from the spec: the background reaper, which a store may run at
    any time or never: it removes the records that have expired. *)
Definition reap (now : N) (store : gmap string Session)
  : gmap string Session :=
  filter (λ kv, expired now kv.2 = false) store.

(** The calls a store receives, each at a clock reading, and the store
    after a sequence of them. *)
Inductive Call :=
| CallCreate (s : Session)
| CallGet (sid : string)
| CallConsume (sid : string)
| CallReap.

Definition call (now : N) (c : Call) (store : gmap string Session)
  : gmap string Session :=
  match c with
  | CallCreate s => (create s store).2
  | CallGet _ => store
  | CallConsume sid => (consume now sid store).2
  | CallReap => reap now store
  end.

Definition run (calls : list (N * Call)) (store : gmap string Session)
  : gmap string Session :=
  foldl (λ st nc, call nc.1 nc.2 st) store calls.

(** A call that creates a session under the id [sid]. *)
Definition creates (sid : string) (c : Call) : bool :=
  match c with
  | CallCreate s => bool_decide (id s = sid)
  | _ => false
  end.

(** The number of calls of a sequence that consume [sid] with success. *)
Fixpoint successes (sid : string) (calls : list (N * Call))
    (store : gmap string Session) : nat :=
  match calls with
  | [] => 0
  | (now, c) :: rest =>
      (match c with
       | CallConsume sid' =>
           if bool_decide (sid' = sid) then
             match (consume now sid' store).1 with
             | Ok _ => 1
             | Err _ => 0
             end
           else 0
       | _ => 0
       end) + successes sid rest (call now c store)
  end.

(** *** Credential store *)

(** Modelled from the spec: the credential record of the data model.  The
    sign count is the counter the authenticator reports. *)
Record Credential := {
  credential_id : string;
  user_id : string;
  public_key : list N;
  sign_count : N;
  transports : list string;
  credential_created_at : N;
}.

Definition with_sign_count (n : N) (c : Credential) : Credential :=
  {| credential_id := credential_id c;
     user_id := user_id c;
     public_key := public_key c;
     sign_count := n;
     transports := transports c;
     credential_created_at := credential_created_at c |}.

(** Modelled from the spec: the credential store's [find_by_id]. *)
Definition find_by_id (cid : string) (store : gmap string Credential)
  : option Credential :=
  store !! cid.

(** Modelled from the spec: the credential store's [put].  It fails when
    the id is registered for a different user. *)
Definition put (c : Credential) (store : gmap string Credential)
  : Result Error unit * gmap string Credential :=
  match store !! credential_id c with
  | Some c' =>
      if bool_decide (user_id c' = user_id c)
      then (Ok tt, <[credential_id c := c]> store)
      else (Err CredentialConflict, store)
  | None => (Ok tt, <[credential_id c := c]> store)
  end.

(** Modelled from the spec: the guard of the sign-count update.  The counter
    [n] advances the stored counter [current] when it is greater, or when
    both are [0] (an authenticator without a counter). *)
Definition advances (current n : N) : bool :=
  (current <? n)%N || ((n =? 0)%N && (current =? 0)%N).

(** Modelled from the spec: the credential store's [update_sign_count],
    a guarded update: the new count is written when it advances the stored
    one, and rejected with [StaleSignCount], without a write, otherwise.
    The contract names no outcome for an id that is not stored;
    [UnknownCredential] is returned then. *)
Definition update_sign_count (cid : string) (n : N)
    (store : gmap string Credential)
  : Result Error unit * gmap string Credential :=
  match store !! cid with
  | None => (Err UnknownCredential, store)
  | Some c =>
      if advances (sign_count c) n
      then (Ok tt, <[cid := with_sign_count n c]> store)
      else (Err StaleSignCount, store)
  end.

(** A session and a credential to evaluate the stores on. *)
Definition sample_session : Session := {|
  id := "S1";
  challenge := [1; 2; 3; 4]%N;
  kind := Registration;
  user_handle := None;
  created_at := 100;
  expires_at := 400;
  state := Pending;
|}.

(** A later session under the id of [sample_session], and a session under
    another id. *)
Definition renewed_session : Session := {|
  id := "S1";
  challenge := [5; 6; 7; 8]%N;
  kind := Authentication;
  user_handle := None;
  created_at := 460;
  expires_at := 800;
  state := Pending;
|}.

Definition other_session : Session := {|
  id := "S2";
  challenge := [9; 9; 9; 9]%N;
  kind := Authentication;
  user_handle := None;
  created_at := 260;
  expires_at := 560;
  state := Pending;
|}.

Definition sample_credential : Credential := {|
  credential_id := "cred-1";
  user_id := "alice";
  public_key := [4; 8; 15]%N;
  sign_count := 4;
  transports := ["internal"];
  credential_created_at := 100;
|}.

End CeremonyCore.

(** ** Reading a provisioned construct *)

Module Provisioned.
Import JsString Cdk CredentialsApi.

(** The parameters among permissions. *)
Definition parameters_granted (ps : list Permission) : list StringParameter :=
  ps ≫= λ p, match p with ParameterRead q => [q] | _ => [] end.

(** The values an environment holds for the given variables, in their
    order; a variable that is not set gives nothing. *)
Definition env_values (fn : Function) (keys : list string) : list string :=
  omap (λ k, env fn !! k) keys.

#[global] Instance CorsHttpMethod_eq_dec : EqDecision CorsHttpMethod.
Proof. solve_decision. Defined.

(** The member of [CorsHttpMethod] with the value of a member of
    [HttpMethod]. *)
Definition cors_method (m : HttpMethod) : CorsHttpMethod :=
  match m with
  | ANY => CORS_ANY
  | DELETE => CORS_DELETE
  | GET => CORS_GET
  | HEAD => CORS_HEAD
  | OPTIONS => CORS_OPTIONS
  | PATCH => CORS_PATCH
  | POST => CORS_POST
  | PUT => CORS_PUT
  end.

(** A path has a path variable when it has an opening brace. *)
Fixpoint has_path_variable (path : string) : bool :=
  match path with
  | EmptyString => false
  | String c r => Ascii.eqb c "{" || has_path_variable r
  end.

(** The preflight answer allows a method when [allowMethods] lists it or
    lists the wildcard. *)
Definition cors_allows (c : CorsPreflightOptions) (m : HttpMethod) : bool :=
  bool_decide (CORS_ANY ∈ allowMethods c)
  || bool_decide (cors_method m ∈ allowMethods c).

End Provisioned.

(** * Properties *)

Module JsStringFacts.
Import JsString.

Example replace_trailing_slash_on_paths :
  replace_trailing_slash "/auth/credentials/" = "/auth/credentials"
  ∧ replace_trailing_slash "/auth/credentials" = "/auth/credentials"
  ∧ replace_trailing_slash "/auth//" = "/auth/"
  ∧ replace_trailing_slash "a/b" = "a/b"
  ∧ replace_trailing_slash "/" = ""
  ∧ replace_trailing_slash "" = "".
Proof. by repeat split. Qed.

Example replace_leading_slash_on_paths :
  replace_leading_slash "/auth/credentials/" = "auth/credentials/"
  ∧ replace_leading_slash "auth/" = "auth/"
  ∧ replace_leading_slash "//auth" = "/auth"
  ∧ replace_leading_slash "/" = ""
  ∧ replace_leading_slash "" = "".
Proof. by repeat split. Qed.

Example path_join_of_manifest :
  path_join ["lambda"; "authentication"; "Cargo.toml"]
    = "lambda/authentication/Cargo.toml".
Proof. reflexivity. Qed.

Lemma app_cons (c : ascii) (a b : string) :
  String c a +:+ b = String c (a +:+ b).
Proof. done. Qed.

Lemma app_nil_r (s : string) : s +:+ "" = s.
Proof. induction s as [|c s IH]; [done | by rewrite app_cons, IH]. Qed.

Lemma app_assoc (a b c : string) : (a +:+ b) +:+ c = a +:+ (b +:+ c).
Proof. induction a as [|x a IH]; [done | by rewrite !app_cons, IH]. Qed.

Lemma app_length (a b : string) :
  String.length (a +:+ b) = String.length a + String.length b.
Proof.
  induction a as [|x a IH]; [done|].
  rewrite app_cons. cbn [String.length]. by rewrite IH.
Qed.

Lemma eqb_slash_cons (c : ascii) (r : string) :
  r ≠ "" → String.eqb (String c r) "/" = false.
Proof.
  intros Hr. apply String.eqb_neq. intros Heq. by simplify_eq.
Qed.

Lemma app_slash_nonempty (x : string) : x +:+ "/" ≠ "".
Proof. by destruct x. Qed.

(** A trailing slash is removed. *)
Lemma replace_trailing_slash_app (x : string) :
  replace_trailing_slash (x +:+ "/") = x.
Proof.
  induction x as [|c x IH]; [done|].
  rewrite app_cons. cbn [replace_trailing_slash].
  rewrite eqb_slash_cons by apply app_slash_nonempty.
  by rewrite IH.
Qed.

(** A string that does not end with a slash is returned as it is. *)
Lemma replace_trailing_slash_id (s : string) :
  ends_with_slash s = false → replace_trailing_slash s = s.
Proof.
  induction s as [|c s IH]; [done|].
  intros Hs. cbn [replace_trailing_slash].
  destruct s as [|d s].
  - cbn in Hs. cbn. by rewrite Hs.
  - rewrite eqb_slash_cons by done. f_equal. by apply IH.
Qed.

Lemma ends_with_slash_app (x : string) : ends_with_slash (x +:+ "/") = true.
Proof.
  induction x as [|c x IH]; [done|].
  rewrite app_cons. cbn [ends_with_slash].
  destruct (x +:+ "/") eqn:E; [by destruct x | done].
Qed.

Lemma ends_with_slash_inv (s : string) :
  ends_with_slash s = true → ∃ x, s = x +:+ "/".
Proof.
  induction s as [|c s IH]; [done|].
  destruct s as [|d s].
  - cbn. intros ->%Ascii.eqb_eq. by exists "".
  - intros Hs. destruct (IH Hs) as [x Hx]. exists (String c x).
    by rewrite app_cons, <- Hx.
Qed.

Lemma replace_leading_slash_cons (x : string) :
  replace_leading_slash (String "/" x) = x.
Proof. done. Qed.

Lemma replace_leading_slash_id (s : string) :
  starts_with_slash s = false → replace_leading_slash s = s.
Proof. destruct s as [|c s]; [done|]. cbn. by intros ->. Qed.

Lemma strip_prefix_app (p r : string) : strip_prefix p (p +:+ r) = Some r.
Proof.
  induction p as [|a p IH]; [done|].
  rewrite app_cons. cbn [strip_prefix]. by rewrite Ascii.eqb_refl.
Qed.

Lemma strip_prefix_inv (p s r : string) :
  strip_prefix p s = Some r → s = p +:+ r.
Proof.
  revert s. induction p as [|a p IH]; intros s; cbn.
  - by intros [= ->].
  - destruct s as [|b s]; [done|].
    destruct (Ascii.eqb a b) eqn:E; [|done].
    apply Ascii.eqb_eq in E as ->. intros H.
    by rewrite app_cons, <- (IH _ H).
Qed.

End JsStringFacts.

(** ** Properties of the Credentials API construct *)

Module CredentialsApiFacts.
Import JsString JsStringFacts Cdk CredentialsApi.

Section Instance.
Variables (stageUrl id : string) (p : CredentialsApiProps).

Let this := instance stageUrl id p.
Let sc := scope_of stageUrl id p.

Lemma props_instance : props this = p.
Proof. reflexivity. Qed.

Lemma env_registration :
  env (registrationLambda this) = js_object [
    ("BASE_PATH", replace_trailing_slash (basePath p) +:+ "/registration/");
    ("SESSION_TABLE_NAME",
      tableName (SessionStore.sessionTable (sessionStore p)));
    ("USER_POOL_ID", userPoolId (UserPool.userPool (userPool p)));
    ("CREDENTIAL_TABLE_NAME",
      tableName (UserPool.credentialTable (userPool p)));
    ("RP_ORIGIN_PARAMETER_PATH",
      parameterName (Parameters.rpOriginParameter (parameters p)))
  ].
Proof. reflexivity. Qed.

Lemma env_discoverable :
  env (discoverableLambda this) = js_object [
    ("BASE_PATH", replace_trailing_slash (basePath p) +:+ "/discoverable/");
    ("SESSION_TABLE_NAME",
      tableName (SessionStore.sessionTable (sessionStore p)));
    ("RP_ORIGIN_PARAMETER_PATH",
      parameterName (Parameters.rpOriginParameter (parameters p)))
  ].
Proof. reflexivity. Qed.

Lemma permissions_registration :
  permissions_of sc (registrationLambda this) = [
    ParameterRead (Parameters.rpOriginParameter (parameters p));
    TableReadWriteData (SessionStore.sessionTable (sessionStore p));
    TableReadWriteData (UserPool.credentialTable (userPool p));
    UserPoolActions (UserPool.userPool (userPool p)) [
      "cognito-idp:AdminCreateUser";
      "cognito-idp:AdminSetUserPassword";
      "cognito-idp:ListUsers" ]
  ].
Proof. reflexivity. Qed.

Lemma permissions_discoverable :
  permissions_of sc (discoverableLambda this) = [
    ParameterRead (Parameters.rpOriginParameter (parameters p));
    TableReadWriteData (SessionStore.sessionTable (sessionStore p))
  ].
Proof. reflexivity. Qed.

Lemma routes_instance :
  routes (credentialsApi this) = [
    {| routePath :=
         (replace_trailing_slash (basePath p) +:+ "/registration/")
           +:+ "{proxy+}";
       routeMethod := POST;
       routeIntegration := {| integrationId := "Registration";
                              handler := registrationLambda this |} |};
    {| routePath :=
         (replace_trailing_slash (basePath p) +:+ "/discoverable/")
           +:+ "{proxy+}";
       routeMethod := POST;
       routeIntegration := {| integrationId := "Discoverable";
                              handler := discoverableLambda this |} |}
  ].
Proof. reflexivity. Qed.

Lemma defaultStage_instance :
  defaultStage (credentialsApi this) = Some {| url := stageUrl |}.
Proof. reflexivity. Qed.

Lemma constructs_instance :
  constructs sc =
    [ [id]; [id; "RegistrationLambda"]; [id; "DiscoverableLambda"];
      [id; "CredentialsApi"] ].
Proof. reflexivity. Qed.

End Instance.

(** Reading an environment written as an object literal. *)
Ltac env_lookup :=
  rewrite ?env_registration, ?env_discoverable;
  unfold js_object; cbn [foldl fst snd];
  repeat (first [ rewrite lookup_insert_eq
                | rewrite lookup_insert_ne by discriminate
                | rewrite lookup_empty ]).

Ltac env_dom :=
  rewrite ?env_registration, ?env_discoverable;
  unfold js_object; cbn [foldl fst snd];
  rewrite !dom_insert_L, dom_empty_L.

(** The sample construct. *)
Example sample_routes :
  let api := credentialsApi (instance sample_url "Api" sample_props) in
  (λ r, (routeMethod r, routePath r)) <$> routes api
    = [ (POST, "/auth/credentials/registration/{proxy+}");
        (POST, "/auth/credentials/discoverable/{proxy+}") ].
Proof. reflexivity. Qed.

Example sample_requests :
  let this := instance sample_url "Api" sample_props in
  let api := credentialsApi this in
  handlers api POST "/auth/credentials/registration/start"
    = [registrationLambda this]
  ∧ handlers api POST "/auth/credentials/discoverable/finish"
    = [discoverableLambda this]
  ∧ handlers api GET "/auth/credentials/registration/start" = []
  ∧ handlers api POST "/auth/credentials/registration/" = []
  ∧ handlers api POST "/auth/credentials//registration/start" = [].
Proof. cbn zeta. split_and!; reflexivity. Qed.

Example sample_getters :
  let this := instance sample_url "Api" sample_props in
  get_basePath this = "/auth/credentials"
  ∧ get_internalUrl this = Some "https://api.example.com/auth/credentials/".
Proof. by split. Qed.

(** *** The getters *)

(** C9. For every [props.basePath] the [basePath] getter returns it with
    exactly one trailing slash removed when there is one, and unchanged
    otherwise: putting the slash back gives [props.basePath] again.  So a
    base path that ends with two or more slashes yields a value that still
    ends with a slash. *)
Theorem basePath_getter_strips_one_trailing_slash
    (stageUrl id : string) (p : CredentialsApiProps) :
  let this := instance stageUrl id p in
  (if ends_with_slash (basePath p)
   then get_basePath this +:+ "/" else get_basePath this) = basePath p
  ∧ (∀ x, get_basePath (instance stageUrl id (with_basePath (x +:+ "/") p))
          = x)
  ∧ (∀ x, let this2 :=
            instance stageUrl id (with_basePath ((x +:+ "/") +:+ "/") p) in
          get_basePath this2 = x +:+ "/"
          ∧ ends_with_slash (get_basePath this2) = true).
Proof.
  cbn zeta. unfold get_basePath. rewrite !props_instance.
  split; [|split].
  - destruct (ends_with_slash (basePath p)) eqn:E.
    + destruct (ends_with_slash_inv _ E) as [x ->].
      by rewrite replace_trailing_slash_app.
    + by apply replace_trailing_slash_id.
  - intros x. rewrite props_instance. apply replace_trailing_slash_app.
  - intros x. rewrite props_instance. cbn [basePath with_basePath].
    rewrite replace_trailing_slash_app.
    split; [done | apply ends_with_slash_app].
Qed.

(** The single-slash base path: its only slash is the leading one, so the
    internal URL is the one of the empty base path. *)
Lemma internalUrl_of_single_slash (stageUrl id : string)
    (p : CredentialsApiProps) :
  get_internalUrl (instance stageUrl id (with_basePath "/" p))
    = Some stageUrl
  ∧ get_internalUrl (instance stageUrl id (with_basePath "" p))
    = Some stageUrl.
Proof.
  split.
  - change (Some (stageUrl +:+ "") = Some stageUrl). by rewrite app_nil_r.
  - change (Some (stageUrl +:+ "") = Some stageUrl). by rewrite app_nil_r.
Qed.

(** C10, as stated, fails on the base path ["/"]: this base path ends with
    a slash, yet the internal URL is the bare stage URL, the same as for
    the empty base path, and the [basePath] getter yields the same empty
    path as is appended here. *)
Lemma internalUrl_single_slash_not_preserved :
  let with_slash := instance sample_url "Api" (with_basePath "/" sample_props) in
  let without := instance sample_url "Api" (with_basePath "" sample_props) in
  ends_with_slash (basePath (props with_slash)) = true
  ∧ get_internalUrl with_slash = Some sample_url
  ∧ get_internalUrl with_slash = get_internalUrl without
  ∧ get_internalUrl with_slash
      ≠ (λ s, s +:+ "/") <$> get_internalUrl without
  ∧ get_internalUrl with_slash
      = Some (sample_url +:+ get_basePath with_slash).
Proof. cbn zeta. repeat split; (reflexivity || discriminate). Qed.

(** C10 (amended). For every [props.basePath] the [internalUrl] getter
    returns the URL of the default stage followed by [props.basePath]
    without exactly one leading slash.  A trailing slash of a base path
    that has a character before it is kept, where the [basePath] getter
    drops it. *)
Theorem internalUrl_strips_one_leading_slash
    (stageUrl id : string) (p : CredentialsApiProps) :
  let this := instance stageUrl id p in
  let at_base b := instance stageUrl id (with_basePath b p) in
  get_internalUrl this
    = Some (stageUrl +:+ replace_leading_slash (basePath p))
  ∧ (if starts_with_slash (basePath p)
     then String "/" (replace_leading_slash (basePath p))
     else replace_leading_slash (basePath p)) = basePath p
  ∧ (∀ x, get_internalUrl (at_base (String "/" x))
          = Some (stageUrl +:+ x))
  ∧ (∀ c r, get_internalUrl (at_base (String c r +:+ "/"))
            = (λ s, s +:+ "/") <$> get_internalUrl (at_base (String c r))
            ∧ get_basePath (at_base (String c r +:+ "/")) = String c r).
Proof.
  cbn zeta. repeat split.
  - destruct (basePath p) as [|c r]; [done|].
    cbn. by destruct (Ascii.eqb c "/") eqn:E; [apply Ascii.eqb_eq in E as ->|].
  - change (Some (stageUrl +:+ replace_leading_slash (String c r +:+ "/"))
            = Some ((stageUrl +:+ replace_leading_slash (String c r))
                      +:+ "/")).
    rewrite app_assoc, app_cons. cbn [replace_leading_slash].
    by destruct (Ascii.eqb c "/").
  - unfold get_basePath. rewrite props_instance.
    apply replace_trailing_slash_app.
Qed.

(** *** Base paths and routes *)

(** C8. Route construction does not see a single trailing slash of the
    configured base path: for a [b] that does not end with a slash, the
    constructs for [b] and for [b/] have the same two route paths and the
    same [BASE_PATH] in both functions. *)
Theorem single_trailing_slash_insensitive
    (stageUrl id : string) (p : CredentialsApiProps) (b : string) :
  ends_with_slash b = false →
  let plain := instance stageUrl id (with_basePath b p) in
  let slashed := instance stageUrl id (with_basePath (b +:+ "/") p) in
  routePath <$> routes (credentialsApi slashed)
    = routePath <$> routes (credentialsApi plain)
  ∧ routePath <$> routes (credentialsApi plain)
    = [ (b +:+ "/registration/") +:+ "{proxy+}";
        (b +:+ "/discoverable/") +:+ "{proxy+}" ]
  ∧ env (registrationLambda slashed) !! "BASE_PATH"
    = env (registrationLambda plain) !! "BASE_PATH"
  ∧ env (registrationLambda plain) !! "BASE_PATH"
    = Some (b +:+ "/registration/")
  ∧ env (discoverableLambda slashed) !! "BASE_PATH"
    = env (discoverableLambda plain) !! "BASE_PATH"
  ∧ env (discoverableLambda plain) !! "BASE_PATH"
    = Some (b +:+ "/discoverable/").
Proof.
  intros Hb. cbn zeta.
  rewrite !routes_instance. cbn [fmap list_fmap routePath].
  rewrite !env_registration, !env_discoverable.
  cbn [basePath with_basePath].
  rewrite replace_trailing_slash_app, (replace_trailing_slash_id b Hb).
  repeat split; by env_lookup.
Qed.

Lemma single_trailing_slash_insensitive_witness :
  let plain :=
    instance sample_url "Api"
      (with_basePath "/auth/credentials" sample_props) in
  let slashed :=
    instance sample_url "Api"
      (with_basePath ("/auth/credentials" +:+ "/") sample_props) in
  ends_with_slash "/auth/credentials" = false
  ∧ routePath <$> routes (credentialsApi slashed)
    = routePath <$> routes (credentialsApi plain)
  ∧ env (registrationLambda slashed) !! "BASE_PATH"
    = env (registrationLambda plain) !! "BASE_PATH"
  ∧ env (discoverableLambda slashed) !! "BASE_PATH"
    = env (discoverableLambda plain) !! "BASE_PATH".
Proof.
  assert (ends_with_slash "/auth/credentials" = false) as Hb
    by reflexivity.
  pose proof (single_trailing_slash_insensitive sample_url "Api"
                sample_props "/auth/credentials" Hb) as H.
  cbn zeta in H.
  destruct H as (Hroutes & _ & Hreg & _ & Hdisc & _).
  exact (conj Hb (conj Hroutes (conj Hreg Hdisc))).
Defined.

(** Routing. *)

Lemma greedy_prefix_app (prefix : string) :
  greedy_prefix (prefix +:+ "{proxy+}") = Some prefix.
Proof.
  induction prefix as [|c r IH]; [done|].
  rewrite app_cons. cbn [greedy_prefix].
  replace (String.eqb (String c (r +:+ "{proxy+}")) "{proxy+}") with false.
  - by rewrite IH.
  - symmetry. apply String.eqb_neq. intros Heq.
    apply (f_equal String.length) in Heq.
    cbn [String.length] in Heq. rewrite app_length in Heq.
    cbn [String.length] in Heq. lia.
Qed.

Lemma strip_prefix_common (a x y : string) :
  strip_prefix (a +:+ x) (a +:+ y) = strip_prefix x y.
Proof.
  induction a as [|c a IH]; [done|].
  rewrite !app_cons. cbn [strip_prefix]. by rewrite Ascii.eqb_refl.
Qed.

Lemma path_matches_greedy (prefix rest : string) :
  rest ≠ "" →
  path_matches (prefix +:+ "{proxy+}") (prefix +:+ rest) = true.
Proof.
  intros Hrest. unfold path_matches.
  rewrite greedy_prefix_app, strip_prefix_app.
  by apply String.eqb_neq in Hrest as ->.
Qed.

Lemma path_matches_other_branch (base x y rest : string) :
  strip_prefix x (y +:+ rest) = None →
  path_matches ((base +:+ x) +:+ "{proxy+}") ((base +:+ y) +:+ rest)
    = false.
Proof.
  intros Hxy. unfold path_matches.
  rewrite greedy_prefix_app.
  replace (base +:+ x) with (base +:+ (x +:+ "")) by by rewrite app_nil_r.
  rewrite (app_assoc base y rest), strip_prefix_common.
  by rewrite app_nil_r, Hxy.
Qed.

Lemma filter_bool_cons {A} (f : A → bool) (x : A) (l : list A) :
  filter (λ a, f a) (x :: l)
    = if f x then x :: filter (λ a, f a) l else filter (λ a, f a) l.
Proof.
  rewrite filter_cons. destruct (f x); by case_decide.
Qed.

Lemma handlers_registration (stageUrl id : string)
    (p : CredentialsApiProps) (rest : string) :
  rest ≠ "" →
  let this := instance stageUrl id p in
  handlers (credentialsApi this) POST
    ((get_basePath this +:+ "/registration/") +:+ rest)
    = [registrationLambda this].
Proof.
  intros Hrest. cbn zeta. unfold handlers, get_basePath.
  rewrite routes_instance, props_instance.
  rewrite !filter_bool_cons, filter_nil.
  unfold route_matches. cbn [routeMethod routePath method_matches].
  rewrite path_matches_greedy by done.
  rewrite path_matches_other_branch by done.
  reflexivity.
Qed.

Lemma handlers_discoverable (stageUrl id : string)
    (p : CredentialsApiProps) (rest : string) :
  rest ≠ "" →
  let this := instance stageUrl id p in
  handlers (credentialsApi this) POST
    ((get_basePath this +:+ "/discoverable/") +:+ rest)
    = [discoverableLambda this].
Proof.
  intros Hrest. cbn zeta. unfold handlers, get_basePath.
  rewrite routes_instance, props_instance.
  rewrite !filter_bool_cons, filter_nil.
  unfold route_matches. cbn [routeMethod routePath method_matches].
  rewrite path_matches_greedy by done.
  rewrite path_matches_other_branch by done.
  reflexivity.
Qed.

Lemma handlers_other_method (stageUrl id : string)
    (p : CredentialsApiProps) (m : HttpMethod) (path : string) :
  m ≠ POST →
  handlers (credentialsApi (instance stageUrl id p)) m path = [].
Proof.
  intros Hm. unfold handlers. rewrite routes_instance.
  rewrite !filter_bool_cons, filter_nil.
  unfold route_matches. cbn [routeMethod method_matches].
  by rewrite bool_decide_eq_false_2.
Qed.

(** C5. For every base path the HTTP API has exactly two routes, both for
    POST only: everything under [{base}/registration/] goes to the
    registration function and everything under [{base}/discoverable/] to
    the discoverable function, where [{base}] is the base path without its
    trailing slash.  The four ceremony endpoints are served this way, and a
    request with another method is served by no function. *)
Theorem ceremony_endpoints_are_post_routes
    (stageUrl id : string) (p : CredentialsApiProps) :
  let this := instance stageUrl id p in
  let api := credentialsApi this in
  let base := get_basePath this in
  routes api = [
    {| routePath := (base +:+ "/registration/") +:+ "{proxy+}";
       routeMethod := POST;
       routeIntegration := {| integrationId := "Registration";
                              handler := registrationLambda this |} |};
    {| routePath := (base +:+ "/discoverable/") +:+ "{proxy+}";
       routeMethod := POST;
       routeIntegration := {| integrationId := "Discoverable";
                              handler := discoverableLambda this |} |} ]
  ∧ Forall (λ r, routeMethod r = POST) (routes api)
  ∧ handlers api POST (base +:+ "/registration/start")
    = [registrationLambda this]
  ∧ handlers api POST (base +:+ "/registration/finish")
    = [registrationLambda this]
  ∧ handlers api POST (base +:+ "/discoverable/start")
    = [discoverableLambda this]
  ∧ handlers api POST (base +:+ "/discoverable/finish")
    = [discoverableLambda this]
  ∧ (∀ c r, handlers api POST
              ((base +:+ "/registration/") +:+ String c r)
            = [registrationLambda this])
  ∧ (∀ c r, handlers api POST
              ((base +:+ "/discoverable/") +:+ String c r)
            = [discoverableLambda this])
  ∧ (∀ m path, handlers api m path
               = if bool_decide (m = POST) then handlers api POST path
                 else []).
Proof.
  cbn zeta.
  pose proof (handlers_registration stageUrl id p) as Hreg.
  pose proof (handlers_discoverable stageUrl id p) as Hdisc.
  cbn zeta in Hreg, Hdisc.
  split; [apply routes_instance|].
  split; [rewrite routes_instance; by repeat constructor|].
  split; [etrans; [|by apply (Hreg "start")]; by rewrite app_assoc|].
  split; [etrans; [|by apply (Hreg "finish")]; by rewrite app_assoc|].
  split; [etrans; [|by apply (Hdisc "start")]; by rewrite app_assoc|].
  split; [etrans; [|by apply (Hdisc "finish")]; by rewrite app_assoc|].
  split; [intros c r; by apply Hreg|].
  split; [intros c r; by apply Hdisc|].
  intros m path. case_bool_decide as Hm; [by subst|].
  by apply handlers_other_method.
Qed.

(** *** Environments and grants *)

(** C3, as stated, fails: the discoverable function of the sample
    construct has no [CREDENTIAL_TABLE_NAME], no variable of it holds the
    name of the credential table, and no grant gives it the credential
    table; the registration function has all three. *)
Lemma discoverable_lambda_without_credential_table :
  let this := instance sample_url "Api" sample_props in
  let sc := scope_of sample_url "Api" sample_props in
  let credentials := UserPool.credentialTable (userPool sample_props) in
  env (discoverableLambda this) !! "CREDENTIAL_TABLE_NAME" = None
  ∧ ¬ supplies (discoverableLambda this) (tableName credentials)
  ∧ (credentials
       ∉ tables_granted (permissions_of sc (discoverableLambda this)))
  ∧ env (registrationLambda this) !! "CREDENTIAL_TABLE_NAME"
      = Some (tableName credentials)
  ∧ (credentials
       ∈ tables_granted (permissions_of sc (registrationLambda this))).
Proof.
  cbn zeta. split; [reflexivity|].
  split.
  { intros [k Hk]. rewrite env_discoverable in Hk.
    unfold js_object in Hk. cbn [foldl fst snd] in Hk.
    repeat (rewrite lookup_insert in Hk; case_decide;
            [by vm_compute in Hk|]).
    by rewrite lookup_empty in Hk. }
  split.
  - rewrite permissions_discoverable. cbn. intros Hin.
    apply list_elem_of_singleton in Hin. discriminate Hin.
  - split; [reflexivity|].
    rewrite permissions_registration. cbn. set_solver.
Qed.

(** C3 (amended). The discoverable function is configured with the
    session store and the relying-party origin parameter only: its
    environment has exactly [BASE_PATH], [SESSION_TABLE_NAME] and
    [RP_ORIGIN_PARAMETER_PATH], and it is granted the origin parameter and
    the session table and nothing else.  The credential table, as variable
    and as grant, goes to the registration function. *)
Theorem discoverable_lambda_configuration
    (stageUrl id : string) (p : CredentialsApiProps) :
  let this := instance stageUrl id p in
  let sc := scope_of stageUrl id p in
  dom (env (discoverableLambda this))
    = {[ "BASE_PATH"; "SESSION_TABLE_NAME"; "RP_ORIGIN_PARAMETER_PATH" ]}
  ∧ env (discoverableLambda this) !! "CREDENTIAL_TABLE_NAME" = None
  ∧ permissions_of sc (discoverableLambda this) = [
      ParameterRead (Parameters.rpOriginParameter (parameters p));
      TableReadWriteData (SessionStore.sessionTable (sessionStore p)) ]
  ∧ tables_granted (permissions_of sc (discoverableLambda this))
    = [SessionStore.sessionTable (sessionStore p)]
  ∧ env (registrationLambda this) !! "CREDENTIAL_TABLE_NAME"
    = Some (tableName (UserPool.credentialTable (userPool p)))
  ∧ tables_granted (permissions_of sc (registrationLambda this))
    = [SessionStore.sessionTable (sessionStore p);
       UserPool.credentialTable (userPool p)].
Proof.
  cbn zeta. split_and!.
  - env_dom. set_solver.
  - by env_lookup.
  - apply permissions_discoverable.
  - by rewrite permissions_discoverable.
  - by env_lookup.
  - by rewrite permissions_registration.
Qed.


(** C4, as stated, fails: in the sample construct no variable of the
    discoverable function holds the credential-store location, and the
    variables of the two functions are the ones listed, none of which is a
    session TTL. *)
Lemma ceremony_environments_lack_items :
  let this := instance sample_url "Api" sample_props in
  ¬ supplies (discoverableLambda this) "credential-table"
  ∧ map_to_list (env (discoverableLambda this)) ≡ₚ [
      ("BASE_PATH", "/auth/credentials/discoverable/");
      ("SESSION_TABLE_NAME", "session-table");
      ("RP_ORIGIN_PARAMETER_PATH", "/passkey/rp-origin") ]
  ∧ map_to_list (env (registrationLambda this)) ≡ₚ [
      ("BASE_PATH", "/auth/credentials/registration/");
      ("SESSION_TABLE_NAME", "session-table");
      ("USER_POOL_ID", "pool-1");
      ("CREDENTIAL_TABLE_NAME", "credential-table");
      ("RP_ORIGIN_PARAMETER_PATH", "/passkey/rp-origin") ].
Proof.
  cbn zeta. split_and!.
  - intros [k Hk]. rewrite env_discoverable in Hk.
    unfold js_object in Hk. cbn [foldl fst snd] in Hk.
    repeat (rewrite lookup_insert in Hk; case_decide;
            [by vm_compute in Hk|]).
    by rewrite lookup_empty in Hk.
  - vm_compute. solve_Permutation.
  - vm_compute. solve_Permutation.
Qed.

(** C4 (amended). For every construct both functions get the session-store
    location and the path of the relying-party origin parameter; the
    credential-store location goes to the registration function only; and
    the variables are exactly the listed ones, so neither environment has
    a session TTL. *)
Theorem ceremony_environments
    (stageUrl id : string) (p : CredentialsApiProps) :
  let this := instance stageUrl id p in
  let sessions := tableName (SessionStore.sessionTable (sessionStore p)) in
  let credentials := tableName (UserPool.credentialTable (userPool p)) in
  let origin :=
    parameterName (Parameters.rpOriginParameter (parameters p)) in
  env (registrationLambda this) !! "SESSION_TABLE_NAME" = Some sessions
  ∧ env (discoverableLambda this) !! "SESSION_TABLE_NAME" = Some sessions
  ∧ env (registrationLambda this) !! "RP_ORIGIN_PARAMETER_PATH"
    = Some origin
  ∧ env (discoverableLambda this) !! "RP_ORIGIN_PARAMETER_PATH"
    = Some origin
  ∧ env (registrationLambda this) !! "CREDENTIAL_TABLE_NAME"
    = Some credentials
  ∧ env (discoverableLambda this) !! "CREDENTIAL_TABLE_NAME" = None
  ∧ dom (env (registrationLambda this))
    = {[ "BASE_PATH"; "SESSION_TABLE_NAME"; "USER_POOL_ID";
         "CREDENTIAL_TABLE_NAME"; "RP_ORIGIN_PARAMETER_PATH" ]}
  ∧ dom (env (discoverableLambda this))
    = {[ "BASE_PATH"; "SESSION_TABLE_NAME"; "RP_ORIGIN_PARAMETER_PATH" ]}.
Proof.
  cbn zeta. split_and!; first [by env_lookup | env_dom; set_solver].
Qed.

(** C6. Only the registration function is set up for the identity
    directory: it gets the id of the user pool in [USER_POOL_ID], and its
    single user-pool grant is on that pool for the three actions behind
    [find_user] and [create_user] ([ListUsers], [AdminCreateUser],
    [AdminSetUserPassword]).  The discoverable function gets no
    [USER_POOL_ID] and no user-pool grant. *)
Theorem identity_directory_only_for_registration
    (stageUrl id : string) (p : CredentialsApiProps) :
  let this := instance stageUrl id p in
  let sc := scope_of stageUrl id p in
  env (registrationLambda this) !! "USER_POOL_ID"
    = Some (userPoolId (UserPool.userPool (userPool p)))
  ∧ directory_grants (permissions_of sc (registrationLambda this))
    = [ (UserPool.userPool (userPool p),
         [ "cognito-idp:AdminCreateUser";
           "cognito-idp:AdminSetUserPassword";
           "cognito-idp:ListUsers" ]) ]
  ∧ directory_actions (permissions_of sc (registrationLambda this))
    ≡ₚ [ "cognito-idp:ListUsers";
         "cognito-idp:AdminCreateUser";
         "cognito-idp:AdminSetUserPassword" ]
  ∧ env (discoverableLambda this) !! "USER_POOL_ID" = None
  ∧ directory_grants (permissions_of sc (discoverableLambda this)) = []
  ∧ directory_actions (permissions_of sc (discoverableLambda this)) = [].
Proof.
  cbn zeta. rewrite permissions_registration, permissions_discoverable.
  split_and!; first [by env_lookup | cbn; solve_Permutation].
Qed.

(** C7. The locations written to the environments are the names carried by
    the injected [sessionStore], [userPool] and [parameters], for every
    props: none is a literal of the construct.  They depend on nothing
    else, and two constructions have the same locations exactly when the
    injected names are the same. *)
Theorem locations_come_from_props
    (stageUrl id : string) (p : CredentialsApiProps) :
  let this := instance stageUrl id p in
  locations (registrationLambda this) = Some <$> injected_locations p
  ∧ locations (discoverableLambda this)
    = [ Some (tableName (SessionStore.sessionTable (sessionStore p)));
        None; None;
        Some (parameterName
                (Parameters.rpOriginParameter (parameters p))) ]
  ∧ (∀ stageUrl' id' p',
       let this' := instance stageUrl' id' p' in
       (locations (registrationLambda this')
          = locations (registrationLambda this)
        ↔ injected_locations p' = injected_locations p)
       ∧ (locations (discoverableLambda this')
            = locations (discoverableLambda this)
          ↔ tableName (SessionStore.sessionTable (sessionStore p'))
              = tableName (SessionStore.sessionTable (sessionStore p))
            ∧ parameterName
                (Parameters.rpOriginParameter (parameters p'))
              = parameterName
                  (Parameters.rpOriginParameter (parameters p)))).
Proof.
  cbn zeta.
  assert (∀ u i q,
    locations (registrationLambda (instance u i q))
      = Some <$> injected_locations q) as Hreg.
  { intros u i q. unfold locations. cbn [fmap list_fmap].
    unfold injected_locations. by env_lookup. }
  assert (∀ u i q,
    locations (discoverableLambda (instance u i q))
      = [ Some (tableName (SessionStore.sessionTable (sessionStore q)));
          None; None;
          Some (parameterName
                  (Parameters.rpOriginParameter (parameters q))) ])
    as Hdisc.
  { intros u i q. unfold locations. cbn [fmap list_fmap]. by env_lookup. }
  split_and!; [apply Hreg | apply Hdisc |].
  intros u' i' p'. cbn zeta. rewrite !Hreg, !Hdisc. split.
  - split; [apply (inj (fmap Some)) | by intros ->].
  - split; [by intros [= -> ->] | by intros [-> ->]].
Qed.

End CredentialsApiFacts.

(** ** Properties of the stores *)

Module CeremonyCoreFacts.
Import CeremonyCore.

Lemma consume_ok_inv now sid (store store' : gmap string Session) s :
  consume now sid store = (Ok s, store') →
  store !! sid = Some s ∧ state s = Pending ∧ expired now s = false
  ∧ store' = <[sid := mark_consumed s]> store.
Proof.
  unfold consume, get. destruct (store !! sid) as [s0|]; [|done].
  destruct (expired now s0) eqn:Hex; [done|].
  destruct (state s0) eqn:Hst; [|done].
  by intros [= <- <-].
Qed.

(** A consume of a session that is stored as consumed, or not stored. *)
Lemma consume_stored_consumed now sid (store : gmap string Session) s :
  store !! sid = Some (mark_consumed s) →
  consume now sid store
    = (Err (if expired now s then SessionNotFound
            else SessionAlreadyConsumed), store).
Proof.
  intros Hs. unfold consume, get. rewrite Hs.
  change (expired now (mark_consumed s)) with (expired now s).
  by destruct (expired now s).
Qed.

Lemma consume_not_stored now sid (store : gmap string Session) :
  store !! sid = None → consume now sid store = (Err SessionNotFound, store).
Proof. intros Hs. unfold consume, get. by rewrite Hs. Qed.

(** Unless a session is created under the id, a record that is consumed or
    gone stays consumed or gone. *)
Lemma call_keeps_settled now c sid (store : gmap string Session) s :
  creates sid c = false →
  store !! sid = Some (mark_consumed s) ∨ store !! sid = None →
  call now c store !! sid = Some (mark_consumed s)
  ∨ call now c store !! sid = None.
Proof.
  intros Hfresh Hsid.
  destruct c as [s'|sid'|sid'|]; cbn [call creates] in *; [| done | |].
  - apply bool_decide_eq_false in Hfresh.
    unfold create. destruct (store !! id s'); [done|]. cbn [snd].
    by rewrite lookup_insert_ne.
  - destruct (decide (sid' = sid)) as [->|Hne].
    + destruct Hsid as [Hs|Hs].
      * by rewrite (consume_stored_consumed _ _ _ _ Hs); left.
      * by rewrite (consume_not_stored _ _ _ Hs); right.
    + unfold consume. destruct (get now sid' store) as [s0|]; [|done].
      destruct (state s0); [|done]. cbn [snd]. by rewrite lookup_insert_ne.
  - unfold reap. destruct Hsid as [Hs|Hs].
    + destruct (expired now s) eqn:Hex.
      * right. apply map_lookup_filter_None. right.
        intros s0 Hs0. rewrite Hs in Hs0. injection Hs0 as <-.
        cbn [snd]. change (expired now (mark_consumed s)) with (expired now s).
        by rewrite Hex.
      * left. by apply map_lookup_filter_Some.
    + right. apply map_lookup_filter_None. by left.
Qed.

Lemma run_keeps_settled calls sid (store : gmap string Session) s :
  Forall (λ nc, creates sid nc.2 = false) calls →
  store !! sid = Some (mark_consumed s) ∨ store !! sid = None →
  run calls store !! sid = Some (mark_consumed s)
  ∨ run calls store !! sid = None.
Proof.
  intros Hfresh. revert store.
  induction Hfresh as [|[now c] calls Hc _ IH]; intros store Hsid; [done|].
  cbn [run foldl]. apply IH. by apply call_keeps_settled.
Qed.

(** Before the session expires no call removes its record. *)
Lemma call_keeps_stored now c sid (store : gmap string Session) s :
  creates sid c = false → expired now s = false →
  store !! sid = Some (mark_consumed s) →
  call now c store !! sid = Some (mark_consumed s).
Proof.
  intros Hfresh Hex Hs.
  destruct (call_keeps_settled now c sid store s Hfresh (or_introl Hs))
    as [|Hgone]; [done|].
  destruct c as [s'|sid'|sid'|]; cbn [call creates] in *.
  - apply bool_decide_eq_false in Hfresh.
    unfold create in Hgone. destruct (store !! id s'); cbn [snd] in Hgone;
      [congruence|]. rewrite lookup_insert_ne in Hgone by done. congruence.
  - congruence.
  - destruct (decide (sid' = sid)) as [->|Hne].
    + rewrite (consume_stored_consumed _ _ _ _ Hs) in Hgone.
      cbn [snd] in Hgone. congruence.
    + unfold consume in Hgone.
      destruct (get now sid' store) as [s0|]; cbn [snd] in Hgone;
        [|congruence].
      destruct (state s0); cbn [snd] in Hgone; [|congruence].
      rewrite lookup_insert_ne in Hgone by done. congruence.
  - unfold reap in Hgone.
    apply map_lookup_filter_None in Hgone as [Hgone|Hgone]; [congruence|].
    specialize (Hgone _ Hs). cbn [snd] in Hgone.
    change (expired now (mark_consumed s)) with (expired now s) in Hgone.
    congruence.
Qed.

Lemma run_keeps_stored calls sid (store : gmap string Session) s :
  Forall (λ nc, creates sid nc.2 = false) calls →
  Forall (λ nc, expired nc.1 s = false) calls →
  store !! sid = Some (mark_consumed s) →
  run calls store !! sid = Some (mark_consumed s).
Proof.
  intros Hfresh. revert store.
  induction Hfresh as [|[now c] calls Hc _ IH]; intros store Hex Hs; [done|].
  apply Forall_cons in Hex as [Hnow Hex].
  cbn [run foldl]. apply IH; [done|]. by apply call_keeps_stored.
Qed.

Lemma successes_settled calls sid (store : gmap string Session) s :
  Forall (λ nc, creates sid nc.2 = false) calls →
  store !! sid = Some (mark_consumed s) ∨ store !! sid = None →
  successes sid calls store = 0.
Proof.
  intros Hfresh. revert store.
  induction Hfresh as [|[now c] calls Hc _ IH]; intros store Hsid; [done|].
  cbn [successes].
  rewrite (IH _ (call_keeps_settled now c sid store s Hc Hsid)).
  destruct c as [s'|sid'|sid'|]; [done..| |done].
  case_bool_decide as Heq; [|done]. subst sid'.
  destruct Hsid as [Hs|Hs].
  - by rewrite (consume_stored_consumed _ _ _ _ Hs).
  - by rewrite (consume_not_stored _ _ _ Hs).
Qed.

(** In a sequence of calls that creates no session under the id, at most
    one call consumes the session of that id with success. *)
Lemma successes_at_most_one calls sid (store : gmap string Session) :
  Forall (λ nc, creates sid nc.2 = false) calls →
  (successes sid calls store ≤ 1)%nat.
Proof.
  intros Hfresh. revert store.
  induction Hfresh as [|[now c] calls Hc Hfresh IH]; intros store.
  - cbn. lia.
  - cbn [successes]. specialize (IH (call now c store)).
    destruct c as [s'|sid'|sid'|]; [lia..| |lia].
    case_bool_decide as Hsid; [|lia]. subst sid'.
    cbn [call] in *.
    destruct (consume now sid store) as [[s|e] store'] eqn:Hc';
      cbn [fst snd] in *; [|lia].
    apply consume_ok_inv in Hc' as (Hs & Hst & Hex & ->).
    rewrite (successes_settled calls sid _ s); [lia | done |].
    left. apply lookup_insert_eq.
Qed.

(** C1, as stated, fails once the session has expired.  The sample session
    expires at 400 and is consumed at 200.  A consume at 500 fails with
    [SessionNotFound], not with [SessionAlreadyConsumed]; after a reaper
    ran at 450 there is no record whose state could be [Consumed]; and
    when the id is then given to a new session, a consume succeeds
    again. *)
Lemma consume_after_expiry_is_not_found :
  let store : gmap string Session := {[ "S1" := sample_session ]} in
  let first := consume 200 "S1" store in
  let reaped := run [ (450, CallReap) ]%N first.2 in
  let reused :=
    run [ (450, CallReap); (460, CallCreate renewed_session) ]%N first.2 in
  first.1 = Ok sample_session
  ∧ state <$> first.2 !! "S1" = Some Consumed
  ∧ consume 500 "S1" first.2 = (Err SessionNotFound, first.2)
  ∧ (consume 500 "S1" first.2).1 ≠ Err SessionAlreadyConsumed
  ∧ state <$> reaped !! "S1" = None
  ∧ (consume 500 "S1" reaped).1 = Err SessionNotFound
  ∧ (consume 470 "S1" reused).1 = Ok renewed_session.
Proof.
  cbn zeta.
  assert (consume 200 "S1" ({[ "S1" := sample_session ]})
          = (Ok sample_session,
             <["S1" := mark_consumed sample_session]>
               {[ "S1" := sample_session ]})) as ->.
  { unfold consume, get. by rewrite lookup_singleton_eq. }
  cbn [fst snd].
  assert ((<["S1" := mark_consumed sample_session]>
             ({[ "S1" := sample_session ]} : gmap string Session)) !! "S1"
          = Some (mark_consumed sample_session)) as Hstored
    by apply lookup_insert_eq.
  assert (reap 450 (<["S1" := mark_consumed sample_session]>
                      ({[ "S1" := sample_session ]} : gmap string Session))
            !! "S1" = None) as Hreaped.
  { apply map_lookup_filter_None. right. intros s0 Hs0.
    rewrite Hstored in Hs0. by injection Hs0 as <-. }
  split_and!.
  - done.
  - by rewrite Hstored.
  - by rewrite (consume_stored_consumed _ _ _ _ Hstored).
  - by rewrite (consume_stored_consumed _ _ _ _ Hstored).
  - cbn [run foldl call fst snd]. by rewrite Hreaped.
  - cbn [run foldl call fst snd]. by rewrite (consume_not_stored _ _ _ Hreaped).
  - cbn [run foldl call fst snd]. unfold create.
    change (id renewed_session) with "S1". rewrite Hreaped. cbn [snd].
    unfold consume, get. by rewrite lookup_insert_eq.
Qed.

(** C1 (amended). After a consume of [sid] succeeded and as long as no
    session is created under that id again, no consume of [sid] succeeds.
    The session was pending and is stored as consumed; after any further
    calls to the store, reaper included, its record is consumed or gone, and
    a consume fails and writes nothing.  It fails with
    [SessionAlreadyConsumed], and the session is still consumed, while the
    session has not expired (the clock not running backwards); from the
    expiry on the session is missing to every reader and the consume fails
    with [SessionNotFound], as for an id that was never stored. *)
Theorem consume_never_succeeds_again
    (now : N) (sid : string) (store store' : gmap string Session)
    (s : Session) (calls : list (N * Call)) :
  consume now sid store = (Ok s, store') →
  Forall (λ nc, creates sid nc.2 = false) calls →
  let later := run calls store' in
  state s = Pending
  ∧ state <$> store' !! sid = Some Consumed
  ∧ (later !! sid = Some (mark_consumed s) ∨ later !! sid = None)
  ∧ successes sid calls store' = 0
  ∧ ∀ now' : N,
      (consume now' sid later = (Err SessionAlreadyConsumed, later)
       ∨ consume now' sid later = (Err SessionNotFound, later))
      ∧ ((now' < expires_at s)%N →
         Forall (λ nc, (nc.1 ≤ now')%N) calls →
         consume now' sid later = (Err SessionAlreadyConsumed, later)
         ∧ state <$> later !! sid = Some Consumed
         ∧ state <$> get now' sid later = Some Consumed)
      ∧ ((expires_at s ≤ now')%N →
         consume now' sid later = (Err SessionNotFound, later)
         ∧ get now' sid later = None
         ∧ (consume now' sid later).1 = (consume now' sid ∅).1).
Proof.
  intros (Hs & Hst & Hex & ->)%consume_ok_inv Hfresh. cbn zeta.
  assert ((<[sid := mark_consumed s]> store) !! sid
          = Some (mark_consumed s)) as Hstored by apply lookup_insert_eq.
  pose proof (run_keeps_settled calls sid _ s Hfresh (or_introl Hstored))
    as Hlater.
  split_and!; [done | by rewrite Hstored | done
              | apply (successes_settled _ _ _ s); [done | by left] |].
  intros now'. split_and!.
  - destruct Hlater as [Hl|Hl].
    + rewrite (consume_stored_consumed _ _ _ _ Hl).
      destruct (expired now' s); [by right | by left].
    + right. by apply consume_not_stored.
  - intros Hlive Htimes.
    assert (expired now' s = false) as Hnow'.
    { unfold expired. by apply N.leb_gt. }
    assert (run calls (<[sid := mark_consumed s]> store) !! sid
            = Some (mark_consumed s)) as Hl.
    { apply run_keeps_stored; [done| |done].
      eapply Forall_impl; [exact Htimes|]. intros [t c] Ht. cbn [fst] in *.
      unfold expired. apply N.leb_gt. lia. }
    rewrite (consume_stored_consumed _ _ _ _ Hl), Hnow'.
    split_and!; [done | by rewrite Hl |].
    unfold get. rewrite Hl.
    change (expired now' (mark_consumed s)) with (expired now' s).
    by rewrite Hnow'.
  - intros Hdead.
    assert (expired now' s = true) as Hnow'.
    { unfold expired. by apply N.leb_le. }
    destruct Hlater as [Hl|Hl].
    + rewrite (consume_stored_consumed _ _ _ _ Hl), Hnow'.
      split_and!; [done | | done].
      unfold get. rewrite Hl.
      change (expired now' (mark_consumed s)) with (expired now' s).
      by rewrite Hnow'.
    + rewrite (consume_not_stored _ _ _ Hl).
      split_and!; [done | | done].
      unfold get. by rewrite Hl.
Qed.

Lemma consume_never_succeeds_again_witness :
  let store : gmap string Session := {[ "S1" := sample_session ]} in
  let store' := <["S1" := mark_consumed sample_session]> store in
  let calls :=
    [ (250, CallGet "S1"); (260, CallCreate other_session);
      (270, CallConsume "S1"); (300, CallReap) ]%N in
  let later := run calls store' in
  consume 200 "S1" store = (Ok sample_session, store')
  ∧ Forall (λ nc, creates "S1" nc.2 = false) calls
  ∧ consume 300 "S1" later = (Err SessionAlreadyConsumed, later)
  ∧ state <$> later !! "S1" = Some Consumed
  ∧ consume 500 "S1" later = (Err SessionNotFound, later).
Proof.
  cbn zeta.
  assert (consume 200 "S1" ({[ "S1" := sample_session ]})
          = (Ok sample_session,
             <["S1" := mark_consumed sample_session]>
               {[ "S1" := sample_session ]})) as Hfirst.
  { unfold consume, get. by rewrite lookup_singleton_eq. }
  assert (Forall (λ nc : N * Call, creates "S1" nc.2 = false)
            [ (250, CallGet "S1"); (260, CallCreate other_session);
              (270, CallConsume "S1"); (300, CallReap) ]%N) as Hfresh.
  { repeat constructor. }
  destruct (consume_never_succeeds_again _ _ _ _ _ _ Hfirst Hfresh)
    as (_ & _ & _ & _ & Hlater).
  assert (Forall (λ nc : N * Call, (nc.1 ≤ 300)%N)
            [ (250, CallGet "S1"); (260, CallCreate other_session);
              (270, CallConsume "S1"); (300, CallReap) ]%N) as Htimes.
  { repeat constructor; cbn [fst]; lia. }
  destruct (Hlater 300%N) as (_ & Hlive & _).
  destruct (Hlive eq_refl Htimes) as (Hconsumed & Hstate & _).
  destruct (Hlater 500%N) as (_ & _ & Hdead).
  assert ((expires_at sample_session ≤ 500)%N) as Hlate
    by (cbn [expires_at sample_session]; lia).
  destruct (Hdead Hlate) as (Hmissing & _).
  exact (conj Hfirst (conj Hfresh (conj Hconsumed (conj Hstate Hmissing)))).
Defined.

(** The replay of a finish call: the second consume of the session fails. *)
Example replay_is_refused :
  let store : gmap string Session := {[ "S1" := sample_session ]} in
  let first := consume 200 "S1" store in
  let second := consume 210 "S1" first.2 in
  first.1 = Ok sample_session
  ∧ second.1 = Err SessionAlreadyConsumed
  ∧ second.2 = first.2
  ∧ (consume 200 "S2" store).1 = Err SessionNotFound
  ∧ (consume 400 "S1" store).1 = Err SessionNotFound
  ∧ get 399 "S1" store = Some sample_session
  ∧ get 400 "S1" store = None.
Proof.
  cbn zeta. unfold consume, get.
  rewrite !lookup_singleton_eq, lookup_singleton_ne by done.
  cbn. rewrite lookup_insert_eq. by cbn.
Qed.

(** A login with counter 5 over a stored count of 4 succeeds and stores 5;
    the same counter again is stale. *)
Example counter_scenarios :
  let store : gmap string Credential :=
    {[ "cred-1" := sample_credential ]} in
  let first := update_sign_count "cred-1" 5 store in
  let second := update_sign_count "cred-1" 5 first.2 in
  first.1 = Ok tt
  ∧ sign_count <$> first.2 !! "cred-1" = Some 5%N
  ∧ second.1 = Err StaleSignCount
  ∧ second.2 = first.2
  ∧ (update_sign_count "cred-2" 5 store).1 = Err UnknownCredential.
Proof.
  cbn zeta. unfold update_sign_count.
  rewrite lookup_singleton_eq, lookup_singleton_ne by done.
  cbn. rewrite lookup_insert_eq. by cbn.
Qed.

Lemma advances_spec (current n : N) :
  advances current n = true ↔ (current < n ∨ (n = 0 ∧ current = 0))%N.
Proof.
  unfold advances.
  rewrite orb_true_iff, andb_true_iff, N.ltb_lt, !N.eqb_eq. tauto.
Qed.

(** C2. For a stored credential [c] and a counter [n],
    [update_sign_count] succeeds exactly when [n] is greater than the
    stored sign count or both are [0], and then stores [n]; in every other
    case it fails with [StaleSignCount] and leaves the store, and so the
    stored sign count, unchanged. *)
Theorem update_sign_count_iff_advances
    (store : gmap string Credential) (c : Credential) (n : N) :
  store !! credential_id c = Some c →
  let r := update_sign_count (credential_id c) n store in
  (r.1 = Ok tt ↔ (sign_count c < n ∨ (n = 0 ∧ sign_count c = 0))%N)
  ∧ (r.1 = Ok tt ∨ r.1 = Err StaleSignCount)
  ∧ (r.1 = Ok tt →
     sign_count <$> r.2 !! credential_id c = Some n
     ∧ r.2 = <[credential_id c := with_sign_count n c]> store)
  ∧ (r.1 = Err StaleSignCount →
     r.2 = store
     ∧ sign_count <$> r.2 !! credential_id c = Some (sign_count c)).
Proof.
  intros Hc. cbn zeta. unfold update_sign_count. rewrite Hc.
  rewrite <- advances_spec.
  destruct (advances (sign_count c) n); cbn [fst snd].
  - split_and!; [done | by left | | done].
    intros _. by rewrite lookup_insert_eq.
  - split_and!; [done | by right | done |].
    intros _. by rewrite Hc.
Qed.

Lemma update_sign_count_iff_advances_witness :
  let store : gmap string Credential :=
    {[ "cred-1" := sample_credential ]} in
  (update_sign_count "cred-1" 5 store).1 = Ok tt
  ∧ sign_count <$> (update_sign_count "cred-1" 5 store).2 !! "cred-1"
    = Some 5%N
  ∧ (update_sign_count "cred-1" 4 store).1 = Err StaleSignCount
  ∧ (update_sign_count "cred-1" 4 store).2 = store.
Proof.
  cbn zeta.
  assert (({[ "cred-1" := sample_credential ]} : gmap string Credential)
            !! credential_id sample_credential = Some sample_credential)
    as Hc by apply lookup_singleton_eq.
  pose proof (update_sign_count_iff_advances _ _ 5%N Hc) as H5.
  pose proof (update_sign_count_iff_advances _ _ 4%N Hc) as H4.
  cbn zeta in H5, H4.
  destruct H5 as (Hiff5 & _ & Hok5 & _).
  destruct H4 as (Hiff4 & Hcases4 & _ & Hstale4).
  assert ((update_sign_count (credential_id sample_credential) 5
             {[ "cred-1" := sample_credential ]}).1 = Ok tt) as Hr5.
  { apply Hiff5. left. reflexivity. }
  assert ((update_sign_count (credential_id sample_credential) 4
             {[ "cred-1" := sample_credential ]}).1 = Err StaleSignCount)
    as Hr4.
  { destruct Hcases4 as [Hok|Herr]; [|exact Herr].
    apply Hiff4 in Hok as [Hlt|[Hz _]]; [|discriminate Hz].
    exfalso. revert Hlt. apply N.lt_irrefl. }
  exact (conj Hr5 (conj (proj1 (Hok5 Hr5))
           (conj Hr4 (proj1 (Hstale4 Hr4))))).
Defined.

End CeremonyCoreFacts.

(** ** Further properties of the Credentials API construct *)

Module ProvisionedFacts.
Import JsString JsStringFacts Cdk CredentialsApi Provisioned CredentialsApiFacts.

(** Each function is told, in [BASE_PATH], the prefix of the paths routed to
    it. *)
Lemma base_path_registration (stageUrl id : string)
    (p : CredentialsApiProps) :
  let this := instance stageUrl id p in
  env (registrationLambda this) !! "BASE_PATH"
    = Some (get_basePath this +:+ "/registration/").
Proof. cbn zeta. by env_lookup. Qed.

Lemma base_path_discoverable (stageUrl id : string)
    (p : CredentialsApiProps) :
  let this := instance stageUrl id p in
  env (discoverableLambda this) !! "BASE_PATH"
    = Some (get_basePath this +:+ "/discoverable/").
Proof. cbn zeta. by env_lookup. Qed.

Lemma app_cancel_r (a b s : string) : a +:+ s = b +:+ s → a = b.
Proof.
  revert b. induction a as [|x a IH]; intros [|y b] H.
  - done.
  - change (s = String y (b +:+ s)) in H.
    apply (f_equal String.length) in H.
    cbn [String.length] in H. rewrite app_length in H. lia.
  - change (String x (a +:+ s) = s) in H.
    apply (f_equal String.length) in H.
    cbn [String.length] in H. rewrite app_length in H. lia.
  - rewrite !app_cons in H. injection H as -> H. f_equal. by apply IH.
Qed.

Lemma path_matches_greedy_inv (prefix path : string) :
  path_matches (prefix +:+ "{proxy+}") path = true →
  ∃ c r, path = prefix +:+ String c r.
Proof.
  unfold path_matches. rewrite greedy_prefix_app.
  destruct (strip_prefix prefix path) as [rest|] eqn:E; [|done].
  apply strip_prefix_inv in E as ->.
  destruct rest as [|c r]; [done | eauto].
Qed.

(** X1. When the base path has no path variable, a function serves a
    request exactly when the method is POST and the path is the function's
    [BASE_PATH] followed by at least one character; only the two functions
    of the construct serve requests.  (With a path variable in the base
    path the routes serve more than the paths that extend [BASE_PATH].) *)
Theorem served_requests_extend_base_path
    (stageUrl id : string) (p : CredentialsApiProps)
    (m : HttpMethod) (path : string) (fn : Function) :
  has_path_variable (basePath p) = false →
  let this := instance stageUrl id p in
  fn ∈ handlers (credentialsApi this) m path
  ↔ m = POST
    ∧ (fn = registrationLambda this ∨ fn = discoverableLambda this)
    ∧ ∃ base c r, env fn !! "BASE_PATH" = Some base
                  ∧ path = base +:+ String c r.
Proof.
  intros _. cbn zeta. split.
  - intros Hin.
    assert (m = POST) as ->.
    { destruct (decide (m = POST)) as [|Hm]; [done|].
      rewrite handlers_other_method in Hin by done.
      by apply elem_of_nil in Hin. }
    split; [done|].
    unfold handlers in Hin. rewrite routes_instance in Hin.
    apply list_elem_of_fmap in Hin as (rt & -> & Hrt).
    apply list_elem_of_filter in Hrt as [Hmatch Hrt].
    apply andb_True in Hmatch as [_ Hpath]. apply Is_true_true in Hpath.
    apply elem_of_cons in Hrt as [->|Hrt];
      [|apply list_elem_of_singleton in Hrt as ->];
      cbn [routePath] in Hpath;
      apply path_matches_greedy_inv in Hpath as (c & r & ->);
      cbn [routeIntegration handler compose].
    + split; [by left|]. eexists _, c, r. split; [by env_lookup | done].
    + split; [by right|]. eexists _, c, r. split; [by env_lookup | done].
  - intros (-> & [-> | ->] & base & c & r & Henv & ->).
    + rewrite base_path_registration in Henv. injection Henv as <-.
      rewrite handlers_registration by done. by apply list_elem_of_singleton.
    + rewrite base_path_discoverable in Henv. injection Henv as <-.
      rewrite handlers_discoverable by done. by apply list_elem_of_singleton.
Qed.

Lemma served_requests_extend_base_path_witness :
  let this := instance sample_url "Api" sample_props in
  has_path_variable (basePath sample_props) = false
  ∧ (registrationLambda this
       ∈ handlers (credentialsApi this) POST
           "/auth/credentials/registration/start"
     ↔ POST = POST
       ∧ (registrationLambda this = registrationLambda this
          ∨ registrationLambda this = discoverableLambda this)
       ∧ ∃ base c r,
           env (registrationLambda this) !! "BASE_PATH" = Some base
           ∧ "/auth/credentials/registration/start" = base +:+ String c r).
Proof.
  assert (has_path_variable (basePath sample_props) = false) as Hb
    by reflexivity.
  exact (conj Hb
           (served_requests_extend_base_path sample_url "Api" sample_props
              POST "/auth/credentials/registration/start"
              (registrationLambda (instance sample_url "Api" sample_props))
              Hb)).
Defined.

(** X2. No request is served by both functions: a request has no handler,
    or the registration function alone, or the discoverable function alone.
    The two functions are different constructs with different prefixes. *)
Theorem requests_have_at_most_one_handler
    (stageUrl id : string) (p : CredentialsApiProps)
    (m : HttpMethod) (path : string) :
  let this := instance stageUrl id p in
  let served := handlers (credentialsApi this) m path in
  (served = [] ∨ served = [registrationLambda this]
   ∨ served = [discoverableLambda this])
  ∧ registrationLambda this ≠ discoverableLambda this
  ∧ env (registrationLambda this) !! "BASE_PATH"
    ≠ env (discoverableLambda this) !! "BASE_PATH".
Proof.
  cbn zeta. split_and!.
  - destruct (decide (m = POST)) as [->|Hm];
      [|left; by apply handlers_other_method].
    unfold handlers. rewrite routes_instance.
    rewrite !filter_bool_cons, filter_nil.
    unfold route_matches. cbn [routeMethod routePath method_matches].
    rewrite bool_decide_eq_true_2 by done. cbn [andb].
    destruct (path_matches _ path) eqn:Hreg.
    + apply path_matches_greedy_inv in Hreg as (c & r & ->).
      rewrite path_matches_other_branch by done. by right; left.
    + destruct (path_matches ((_ +:+ "/discoverable/") +:+ _) path);
        [by right; right | by left].
  - intros Heq. by apply (f_equal functionId) in Heq.
  - rewrite base_path_registration, base_path_discoverable.
    intros [= Heq]. apply (inj (String.app _)) in Heq. discriminate Heq.
Qed.

(** X3. Each function is granted exactly the resources whose locations its
    environment carries: the tables named by [SESSION_TABLE_NAME] and
    [CREDENTIAL_TABLE_NAME] (read and write), the parameter named by
    [RP_ORIGIN_PARAMETER_PATH] (read), and the user pool named by
    [USER_POOL_ID]; a variable that is not set comes with no grant, and no
    grant comes without its variable. *)
Theorem grants_match_environment
    (stageUrl id : string) (p : CredentialsApiProps) :
  let this := instance stageUrl id p in
  let sc := scope_of stageUrl id p in
  Forall (λ fn,
      tableName <$> tables_granted (permissions_of sc fn)
        = env_values fn ["SESSION_TABLE_NAME"; "CREDENTIAL_TABLE_NAME"]
      ∧ parameterName <$> parameters_granted (permissions_of sc fn)
        = env_values fn ["RP_ORIGIN_PARAMETER_PATH"]
      ∧ (userPoolId ∘ fst) <$> directory_grants (permissions_of sc fn)
        = env_values fn ["USER_POOL_ID"])
    [registrationLambda this; discoverableLambda this].
Proof.
  cbn zeta. repeat apply Forall_cons_2; [| |apply Forall_nil_2].
  - rewrite permissions_registration. unfold env_values.
    cbn [omap list_omap]. env_lookup. by split_and!.
  - rewrite permissions_discoverable. unfold env_values.
    cbn [omap list_omap]. env_lookup. by split_and!.
Qed.


(** X5. The preflight configuration of the API allows the origins given in
    the props, unchanged, the [Content-Type] header, and exactly the
    methods that have a route, that is POST; the answer may be cached for
    one day. *)
Theorem cors_preflight_matches_routes
    (stageUrl id : string) (p : CredentialsApiProps) :
  let api := credentialsApi (instance stageUrl id p) in
  ∃ c, corsPreflight (apiProps api) = Some c
       ∧ Cdk.allowOrigins c = allowOrigins p
       ∧ allowHeaders c = ["Content-Type"]
       ∧ toSeconds (maxAge c) = 86400%N
       ∧ ∀ m, cors_allows c m
              = bool_decide (m ∈ routeMethod <$> routes api).
Proof.
  cbn zeta. eexists. split; [reflexivity|].
  split_and!; try reflexivity.
  intros m. rewrite routes_instance. by destruct m.
Qed.

(** X6. For a base path of the form [/y/] the internal URL lines up with the
    routes: it is the stage URL followed by [y/], and the path it carries,
    followed by [registration/] or [discoverable/], is the [BASE_PATH] of
    the function of that name, so that every endpoint below it is served by
    that function. *)
Theorem internalUrl_addresses_the_functions
    (stageUrl id : string) (p : CredentialsApiProps) (y : string) :
  let this :=
    instance stageUrl id (with_basePath (String "/" (y +:+ "/")) p) in
  let api := credentialsApi this in
  let carried := String "/" (y +:+ "/") in
  get_internalUrl this = Some (stageUrl +:+ (y +:+ "/"))
  ∧ env (registrationLambda this) !! "BASE_PATH"
    = Some (carried +:+ "registration/")
  ∧ env (discoverableLambda this) !! "BASE_PATH"
    = Some (carried +:+ "discoverable/")
  ∧ (∀ c r, handlers api POST (carried +:+ ("registration/" +:+ String c r))
            = [registrationLambda this])
  ∧ (∀ c r, handlers api POST (carried +:+ ("discoverable/" +:+ String c r))
            = [discoverableLambda this]).
Proof.
  cbn zeta.
  assert (get_basePath
            (instance stageUrl id (with_basePath (String "/" (y +:+ "/")) p))
          = String "/" y) as Hbase.
  { unfold get_basePath. rewrite props_instance. cbn [basePath with_basePath].
    rewrite <- app_cons. apply replace_trailing_slash_app. }
  assert (∀ x, String "/" (y +:+ "/") +:+ x
               = String "/" y +:+ (String "/" x)) as Hsplit.
  { intros x. by rewrite !app_cons, app_assoc. }
  split_and!.
  - reflexivity.
  - rewrite base_path_registration, Hbase. by rewrite Hsplit.
  - rewrite base_path_discoverable, Hbase. by rewrite Hsplit.
  - intros c r. rewrite Hsplit.
    pose proof (handlers_registration stageUrl id
                  (with_basePath (String "/" (y +:+ "/")) p) (String c r))
      as H.
    cbn zeta in H. rewrite Hbase, app_assoc in H. by apply H.
  - intros c r. rewrite Hsplit.
    pose proof (handlers_discoverable stageUrl id
                  (with_basePath (String "/" (y +:+ "/")) p) (String c r))
      as H.
    cbn zeta in H. rewrite Hbase, app_assoc in H. by apply H.
Qed.

(** X7. For a base path that has no path variable and does not end with a
    slash, appending [registration/...] or [discoverable/...] directly to it
    gives a path that no function serves: the routes have a slash after the
    base path, which the internal URL does not. *)
Theorem unslashed_base_path_needs_separator
    (stageUrl id : string) (p : CredentialsApiProps) (b rest : string) :
  has_path_variable b = false →
  ends_with_slash b = false →
  let this := instance stageUrl id (with_basePath b p) in
  let api := credentialsApi this in
  get_internalUrl this = Some (stageUrl +:+ replace_leading_slash b)
  ∧ handlers api POST (b +:+ ("registration/" +:+ rest)) = []
  ∧ handlers api POST (b +:+ ("discoverable/" +:+ rest)) = [].
Proof.
  intros _ Hb. cbn zeta. split; [reflexivity|].
  unfold handlers. rewrite routes_instance.
  cbn [basePath with_basePath]. rewrite (replace_trailing_slash_id b Hb).
  rewrite !filter_bool_cons, !filter_nil.
  unfold route_matches. cbn [routeMethod routePath method_matches].
  rewrite bool_decide_eq_true_2 by done. cbn [andb].
  assert (∀ x y, strip_prefix x y = None →
                 path_matches ((b +:+ x) +:+ "{proxy+}") (b +:+ y) = false)
    as Hno.
  { intros x y Hxy. unfold path_matches.
    rewrite greedy_prefix_app.
    replace (b +:+ x) with (b +:+ (x +:+ "")) by by rewrite app_nil_r.
    rewrite strip_prefix_common, app_nil_r. by rewrite Hxy. }
  by rewrite !Hno.
Qed.

Lemma unslashed_base_path_needs_separator_witness :
  let this :=
    instance sample_url "Api" (with_basePath "/auth" sample_props) in
  let api := credentialsApi this in
  has_path_variable "/auth" = false
  ∧ ends_with_slash "/auth" = false
  ∧ get_internalUrl this = Some "https://api.example.com/auth"
  ∧ handlers api POST "/authregistration/start" = []
  ∧ handlers api POST "/authdiscoverable/start" = [].
Proof.
  assert (has_path_variable "/auth" = false) as Hv by reflexivity.
  assert (ends_with_slash "/auth" = false) as Hb by reflexivity.
  pose proof (unslashed_base_path_needs_separator sample_url "Api"
                sample_props "/auth" "start" Hv Hb) as H.
  cbn zeta in H. exact (conj Hv (conj Hb H)).
Defined.

(** X8. A single trailing slash of the base path changes nothing that is
    provisioned: for a [b] that does not end with a slash, the constructs
    for [b] and for [b/] have the same two functions, the same API and the
    same children and grants, and their [basePath] getters agree. *)
Theorem single_trailing_slash_provisions_the_same
    (stageUrl id : string) (p : CredentialsApiProps) (b : string) :
  ends_with_slash b = false →
  let plain := instance stageUrl id (with_basePath b p) in
  let slashed := instance stageUrl id (with_basePath (b +:+ "/") p) in
  registrationLambda slashed = registrationLambda plain
  ∧ discoverableLambda slashed = discoverableLambda plain
  ∧ credentialsApi slashed = credentialsApi plain
  ∧ scope_of stageUrl id (with_basePath (b +:+ "/") p)
    = scope_of stageUrl id (with_basePath b p)
  ∧ get_basePath slashed = get_basePath plain.
Proof.
  intros Hb. cbn zeta.
  assert (get_basePath (instance stageUrl id (with_basePath (b +:+ "/") p))
          = get_basePath (instance stageUrl id (with_basePath b p))) as Hget.
  { unfold get_basePath. rewrite !props_instance.
    cbn [basePath with_basePath].
    by rewrite replace_trailing_slash_app, (replace_trailing_slash_id b Hb). }
  split_and!; [| | | |exact Hget];
    unfold scope_of, instance, provision, constructor;
    cbn [basePath with_basePath parameters sessionStore userPool
         allowOrigins];
    by rewrite replace_trailing_slash_app, (replace_trailing_slash_id b Hb).
Qed.

Lemma single_trailing_slash_provisions_the_same_witness :
  let plain := instance sample_url "Api" (with_basePath "/auth" sample_props) in
  let slashed :=
    instance sample_url "Api" (with_basePath ("/auth" +:+ "/") sample_props) in
  ends_with_slash "/auth" = false
  ∧ registrationLambda slashed = registrationLambda plain
  ∧ discoverableLambda slashed = discoverableLambda plain
  ∧ credentialsApi slashed = credentialsApi plain.
Proof.
  assert (ends_with_slash "/auth" = false) as Hb by reflexivity.
  pose proof (single_trailing_slash_provisions_the_same sample_url "Api"
                sample_props "/auth" Hb) as H.
  cbn zeta in H. destruct H as (Hreg & Hdisc & Hapi & _).
  exact (conj Hb (conj Hreg (conj Hdisc Hapi))).
Defined.

(** X9. The value of the [basePath] getter ends with a slash exactly when
    [props.basePath] ends with two slashes; and then so do the prefixes of
    the routes, with two slashes before [registration/]. *)
Theorem basePath_getter_ends_with_slash_iff
    (stageUrl id : string) (p : CredentialsApiProps) :
  let this := instance stageUrl id p in
  (ends_with_slash (get_basePath this) = true
   ↔ ∃ x, basePath p = (x +:+ "/") +:+ "/")
  ∧ (ends_with_slash (get_basePath this) = true
     ↔ ∃ x, env (registrationLambda this) !! "BASE_PATH"
            = Some (x +:+ "//registration/")).
Proof.
  cbn zeta.
  assert (ends_with_slash (get_basePath (instance stageUrl id p)) = true
          ↔ ∃ x, basePath p = (x +:+ "/") +:+ "/") as Hiff.
  { unfold get_basePath. rewrite props_instance. split.
    - destruct (ends_with_slash (basePath p)) eqn:E.
      + destruct (ends_with_slash_inv _ E) as [y ->].
        rewrite replace_trailing_slash_app.
        intros [x ->]%ends_with_slash_inv. by exists x.
      + rewrite (replace_trailing_slash_id _ E). by rewrite E.
    - intros [x ->]. rewrite replace_trailing_slash_app.
      apply ends_with_slash_app. }
  split; [exact Hiff|].
  rewrite base_path_registration. split.
  - intros [x Hx]%ends_with_slash_inv. exists x.
    rewrite Hx. by rewrite app_assoc.
  - intros [x [= Hx]].
    change (x +:+ "//registration/")
      with (x +:+ ("/" +:+ "/registration/")) in Hx.
    rewrite <- app_assoc in Hx.
    apply app_cancel_r in Hx. rewrite Hx.
    apply ends_with_slash_app.
Qed.

End ProvisionedFacts.
